(** * Keyword-argument tuple (cpp17_tuple.cpp): a shallow embedding

    The C++ program builds a tuple as a chain of classes, one per element,
    each inheriting from the class of the remaining elements
    ([sized_tuple<NDim, First, Types...> : sized_tuple<NDim, Types...>]).
    Elements are initialised from [position<Index, Type>] wrappers, which
    hold a reference to the caller's object, by the recursive scan
    [initialize]; they are read with [get<Idx>] and written with [set<Idx>].

    Template parameters become ordinary arguments.  A call that does not
    compile is the outcome [IllFormed]; a call whose behaviour the language
    leaves undefined at run time is [Undefined].  Objects the caller passes
    by reference live in a store, so that moving out of them is visible; the
    tuple object itself is passed from call to call.

    The language is C++17, as the file name says.  The element types are
    those of [main]; [char], [short] and [int] are signed, of 8, 16 and 32
    bits.  The caller's objects are not const, as everywhere in [main], and
    the static type of an object is the type of the value it holds. *)

From Stdlib Require Import ZArith String Ascii.
From stdpp Require Import base gmap list strings.

Local Open Scope Z_scope.

(** ** Element types and their values *)

(** The element types that occur in [main]. *)
Inductive ty : Type :=
| TBool            (* bool *)
| TChar            (* char *)
| TShort           (* short *)
| TInt             (* int *)
| TDouble          (* double *)
| TDoublePtr       (* double* *)
| TUniqueString.   (* std::unique_ptr<std::string> *)

Abbreviation loc := nat.

(** Integers are mathematical integers inside the range of their type; a
    [double] is its IEEE 754 binary64 bit pattern; a raw pointer is null or
    an address; an owning pointer is null or owns its pointee. *)
Inductive val : Type :=
| VBool (b : bool)
| VChar (c : Z)
| VShort (n : Z)
| VInt (n : Z)
| VDouble (bits : Z)
| VDoublePtr (p : option loc)
| VUniqueString (p : option string).

Definition type_of (v : val) : ty :=
  match v with
  | VBool _ => TBool
  | VChar _ => TChar
  | VShort _ => TShort
  | VInt _ => TInt
  | VDouble _ => TDouble
  | VDoublePtr _ => TDoublePtr
  | VUniqueString _ => TUniqueString
  end.

Definition ty_eqb (a b : ty) : bool :=
  match a, b with
  | TBool, TBool | TChar, TChar | TShort, TShort | TInt, TInt
  | TDouble, TDouble | TDoublePtr, TDoublePtr
  | TUniqueString, TUniqueString => true
  | _, _ => false
  end.

(** [First{}]: value-initialisation. *)
Definition value_init (First : ty) : val :=
  match First with
  | TBool => VBool false
  | TChar => VChar 0
  | TShort => VShort 0
  | TInt => VInt 0
  | TDouble => VDouble 0
  | TDoublePtr => VDoublePtr None
  | TUniqueString => VUniqueString None
  end.

(** Constructing a new object from an rvalue of the same type: the pair of
    the new object and of what is left in the source.  For scalars and raw
    pointers moving is copying; an owning pointer hands over its pointee and
    becomes null. *)
Definition move_construct (v : val) : val * val :=
  match v with
  | VUniqueString p => (VUniqueString p, VUniqueString None)
  | _ => (v, v)
  end.

(** Constructing from a const object selects the copy constructor, which
    [std::unique_ptr] deletes. *)
Definition copy_construct (v : val) : option val :=
  match v with
  | VUniqueString _ => None
  | _ => Some v
  end.

(** ** Outcomes *)

Inductive outcome (A : Type) : Type :=
| Ok (a : A)       (* compiles and runs *)
| IllFormed        (* rejected by the compiler *)
| Undefined.       (* compiles; undefined behaviour at run time *)

Arguments Ok {A} a.
Arguments IllFormed {A}.
Arguments Undefined {A}.

(** ** Arithmetic conversions *)

(** Two's complement wrap-around to [w] bits. *)
Definition wrap (w z : Z) : Z := (z + 2 ^ (w - 1)) mod 2 ^ w - 2 ^ (w - 1).

Definition double_sign (b : Z) : bool := Z.testbit b 63.
Definition double_exponent (b : Z) : Z := Z.land (Z.shiftr b 52) 2047.
Definition double_fraction (b : Z) : Z := Z.land b (2 ^ 52 - 1).

Definition double_is_nan (b : Z) : bool :=
  (double_exponent b =? 2047) && negb (double_fraction b =? 0).

Definition double_is_zero (b : Z) : bool :=
  (double_exponent b =? 0) && (double_fraction b =? 0).

(** [==] on doubles: a NaN equals nothing, the two zeros are equal. *)
Definition double_eq (a b : Z) : bool :=
  if double_is_nan a || double_is_nan b then false
  else if double_is_zero a && double_is_zero b then true
  else a =? b.

(** An integer of at most 53 significant bits is represented exactly. *)
Definition double_of_Z (z : Z) : Z :=
  if z =? 0 then 0
  else
    let a := Z.abs z in
    let k := Z.log2 a in
    let frac := Z.shiftl a (52 - k) - 2 ^ 52 in
    Z.lor (if z <? 0 then 2 ^ 63 else 0) (Z.lor (Z.shiftl (1023 + k) 52) frac).

(** Truncation toward zero; there is no integer for a NaN or an infinity. *)
Definition Z_of_double (b : Z) : option Z :=
  let e := double_exponent b in
  if e =? 2047 then None
  else if e =? 0 then Some 0
  else
    let m := double_fraction b + 2 ^ 52 in
    let mag := if 1075 <=? e then Z.shiftl m (e - 1075) else Z.shiftr m (1075 - e) in
    Some (if double_sign b then - mag else mag).

Definition of_integer (First : ty) (z : Z) : outcome val :=
  match First with
  | TBool => Ok (VBool (negb (z =? 0)))
  | TChar => Ok (VChar (wrap 8 z))
  | TShort => Ok (VShort (wrap 16 z))
  | TInt => Ok (VInt (wrap 32 z))
  | TDouble => Ok (VDouble (double_of_Z z))
  | TDoublePtr | TUniqueString => IllFormed
  end.

(** A double converts to an integer type only if its truncation fits. *)
Definition fits (w z : Z) : bool := (- 2 ^ (w - 1) <=? z) && (z <? 2 ^ (w - 1)).

Definition of_double_integer (w : Z) (mk : Z -> val) (b : Z) : outcome val :=
  match Z_of_double b with
  | Some z => if fits w z then Ok (mk z) else Undefined
  | None => Undefined
  end.

Definition of_double (First : ty) (b : Z) : outcome val :=
  match First with
  | TBool => Ok (VBool (negb (double_is_zero b)))
  | TChar => of_double_integer 8 VChar b
  | TShort => of_double_integer 16 VShort b
  | TInt => of_double_integer 32 VInt b
  | TDouble => Ok (VDouble b)
  | TDoublePtr | TUniqueString => IllFormed
  end.

(** [m_value( e )] is a direct-initialisation, which may use the explicit
    [operator bool] of an owning pointer; [m_value = e] may not. *)
Inductive init_kind : Type := direct_initialization | assignment.

Definition convert (k : init_kind) (First : ty) (v : val) : outcome val :=
  if ty_eqb (type_of v) First then Ok v
  else
    match v with
    | VBool b => of_integer First (Z.b2z b)
    | VChar z | VShort z | VInt z => of_integer First z
    | VDouble b => of_double First b
    | VDoublePtr p =>
        match First with
        | TBool => Ok (VBool (bool_decide (is_Some p)))
        | _ => IllFormed
        end
    | VUniqueString p =>
        match k, First with
        | direct_initialization, TBool => Ok (VBool (bool_decide (is_Some p)))
        | _, _ => IllFormed
        end
    end.

(** ** Objects, references and the state monad *)

(** [position<Index, Type>]: a slot index known at compile time and a
    reference [Type& value] to the caller's object (a named object or a
    temporary), here its location in the store. *)
Record position : Type := mk_position { index : Z; value : loc }.

(** The state an operation runs in: the objects that references may refer to,
    and a ghost log of the initialisers whose value [initialize] has
    extracted with [std::move( x.value )], oldest first. *)
Record state : Type := mk_state {
  objects : gmap loc val;
  consumed : list position
}.

Definition M (A : Type) : Type := state -> outcome (A * state).

Definition ret {A : Type} (a : A) : M A := fun st => Ok (a, st).

Definition bind {A B : Type} (m : M A) (f : A -> M B) : M B :=
  fun st =>
    match m st with
    | Ok (a, st') => f a st'
    | IllFormed => IllFormed
    | Undefined => Undefined
    end.

Definition lift {A : Type} (o : outcome A) : M A :=
  fun st =>
    match o with
    | Ok a => Ok (a, st)
    | IllFormed => IllFormed
    | Undefined => Undefined
    end.

Notation "x <- m ;; k" := (bind m (fun x => k))
  (at level 100, m at next level, right associativity).

(** Reading through a reference to an object that does not exist. *)
Definition load (l : loc) : M val :=
  fun st =>
    match objects st !! l with
    | Some v => Ok (v, st)
    | None => Undefined
    end.

Definition store (l : loc) (v : val) : M unit :=
  fun st => Ok (tt, mk_state (<[l := v]> (objects st)) (consumed st)).

Definition log_consumed (x : position) : M unit :=
  fun st => Ok (tt, mk_state (objects st) (consumed st ++ [x])).

(** A new object: a named variable, or a materialised temporary. *)
Definition object (v : val) : M loc :=
  fun st =>
    let l := fresh (dom (objects st)) in
    Ok (l, mk_state (<[l := v]> (objects st)) (consumed st)).

(** [pos<Index>( value )] wraps a reference to its argument; nothing is read
    or written. *)
Definition pos (Index : Z) (value : loc) : position := mk_position Index value.

(** An rvalue of the referenced object initialises a new object: the new
    object is returned, the source keeps what the move leaves. *)
Definition move_from (l : loc) : M val :=
  v <- load l ;;
  _ <- store l (snd (move_construct v)) ;;
  ret (fst (move_construct v)).

(** ** [initialize<N, First>( x, rest... )] *)

Fixpoint initialize (N : Z) (First : ty) (xs : list position) : M val :=
  match xs with
  | [] => ret (value_init First)
  | x :: rest =>
      if index x =? N then
        v <- move_from (value x) ;;
        _ <- log_consumed x ;;
        ret v
      else initialize N First rest
  end.

(** ** The chain of classes *)

Inductive sized_tuple : Type :=
| anchor                                                  (* sized_tuple<NDim> *)
| derived (First : ty) (m_value : val) (super : sized_tuple).
                                       (* sized_tuple<NDim, First, Types...> *)

(** [sizeof...] of the parameter pack of a class of the chain. *)
Fixpoint sizeof (t : sized_tuple) : Z :=
  match t with
  | anchor => 0
  | derived _ _ super => 1 + sizeof super
  end.

Fixpoint Types_of (t : sized_tuple) : list ty :=
  match t with
  | anchor => []
  | derived First _ super => First :: Types_of super
  end.

Definition s_index (NDim : Z) (t : sized_tuple) : Z :=
  match t with
  | anchor => NDim + 1
  | derived _ _ super => NDim - sizeof super
  end.

(** The constructor: the base class [super] first, then [m_value]. *)
Fixpoint sized_tuple_ctor (NDim : Z) (Types : list ty) (x : list position)
  : M sized_tuple :=
  match Types with
  | [] => ret anchor
  | First :: Types' =>
      super <- sized_tuple_ctor NDim Types' x ;;
      e <- initialize (NDim - Z.of_nat (length Types')) First x ;;   (* s_index *)
      m_value <- lift (convert direct_initialization First e) ;;
      ret (derived First m_value super)
  end.

(** [tuple<T...> = sized_tuple<sizeof...( T ), T...>]. *)
Definition tuple (T : list ty) (x : list position) : M sized_tuple :=
  sized_tuple_ctor (Z.of_nat (length T)) T x.

(** ** [get<Idx>] *)

(** What a call of [get] evaluates to. *)
Inductive view : Type :=
| prvalue (v : val)        (* the [int] of the recursion anchor *)
| const_xvalue (v : val)   (* [std::move( m_value )] in a const member: a
                              [const First&&] to the slot, which holds [v] *)
| dangling (v : val).      (* a reference to a temporary, which held [v],
                              destroyed when the function returned *)

(** [return e;] in a function whose return type is [auto&&]. *)
Definition return_auto_ref (e : view) : view :=
  match e with
  | prvalue v => dangling v
  | _ => e
  end.

Fixpoint get (NDim Idx : Z) (t : sized_tuple) : outcome view :=
  match t with
  | anchor => Ok (prvalue (VInt 0))
  | derived _ m_value super =>
      if Idx =? s_index NDim t then Ok (const_xvalue m_value)
      else
        match get NDim Idx super with
        | Ok e => Ok (return_auto_ref e)
        | IllFormed => IllFormed
        | Undefined => Undefined
        end
  end.

(** ** [access<T, Idx>] and [set<Idx>] *)

(** [access<T, Idx>::type], or nothing when the instantiation names the
    member [super] of the recursion anchor, which has none. *)
Fixpoint access (T : sized_tuple) (Idx : Z) : option sized_tuple :=
  if Idx =? 1 then Some T
  else
    match T with
    | anchor => None
    | derived _ _ super => access super (Idx - 1)
    end.

(** The object after [access<T, Idx>::type::m_value = v]. *)
Fixpoint assign_m_value (T : sized_tuple) (Idx : Z) (v : val) : sized_tuple :=
  match T with
  | anchor => anchor
  | derived First m_value super =>
      if Idx =? 1 then derived First v super
      else derived First m_value (assign_m_value super (Idx - 1) v)
  end.

(** [m_value = std::move( arg_ )] for an [m_value] of type [First]. *)
Definition move_assign (First : ty) (arg_ : loc) : M val :=
  a <- load arg_ ;;
  v <- lift (convert assignment First (fst (move_construct a))) ;;
  _ <- store arg_ (snd (move_construct a)) ;;
  ret v.

Definition set (Idx : Z) (arg_ : loc) (t : sized_tuple) : M sized_tuple :=
  match t with
  | anchor => ret anchor                      (* the anchor's own [set] *)
  | derived _ _ _ =>
      match access t Idx with
      | Some (derived First _ _) =>
          v <- move_assign First arg_ ;;
          ret (assign_m_value t Idx v)
      | _ => lift IllFormed
      end
  end.

(** ** Client code *)

(** A member call on a tuple object, as [main] makes them. *)
Inductive call : Type :=
| call_get (Idx : Z)
| call_set (Idx : Z) (arg_ : loc).

(** Runs the calls in order on the object [t] of a type [tuple<T...>], whose
    [NDim] is [sizeof...( T )]; the results of the calls of [get] are
    collected.  [get] is a const member function. *)
Fixpoint run (calls : list call) (t : sized_tuple) : M (sized_tuple * list view) :=
  match calls with
  | [] => ret (t, [])
  | call_get Idx :: calls' =>
      e <- lift (get (sizeof t) Idx t) ;;
      r <- run calls' t ;;
      ret (fst r, e :: snd r)
  | call_set Idx arg_ :: calls' =>
      t' <- set Idx arg_ t ;;
      run calls' t'
  end.

(** [auto tmp = t.get<Idx>();] (as in [volatile auto tmp2 = tuple3.get<4>()]):
    the new object, and the slot's value afterwards.  A [const First&&] does
    not bind to the move constructor's [First&&]. *)
Definition init_from (e : view) : outcome (val * view) :=
  match e with
  | prvalue v => Ok (v, prvalue v)
  | const_xvalue v =>
      match copy_construct v with
      | Some c => Ok (c, const_xvalue v)
      | None => IllFormed
      end
  | dangling _ => Undefined
  end.

Definition empty_state : state := mk_state ∅ [].

(** ** [main] *)

(** The literals [3.14] and ['m']. *)
Definition double_3_14 : Z := 0x40091EB851EB851F.
Definition char_m : Z := Z.of_N (Ascii.N_of_ascii "m"%char).

(** [constexpr tuple<bool, char, double, int>
      ctuple( pos<1>( false ), pos<3>( 3.14 ), pos<2>( 'm' ) );] *)
Definition ctuple : M sized_tuple :=
  a <- object (VBool false) ;;
  b <- object (VDouble double_3_14) ;;
  c <- object (VChar char_m) ;;
  tuple [TBool; TChar; TDouble; TInt] [pos 1 a; pos 3 b; pos 2 c].

(** [tuple<bool, short, std::unique_ptr<std::string>>
      tuple2( pos<1>( false ), pos<2>( 4 ),
              pos<3>( std::make_unique<std::string>( "pink pig" ) ) );] *)
Definition tuple2 : M sized_tuple :=
  a <- object (VBool false) ;;
  b <- object (VInt 4) ;;
  c <- object (VUniqueString (Some "pink pig"%string)) ;;
  tuple [TBool; TShort; TUniqueString] [pos 1 a; pos 2 b; pos 3 c].

(** [auto p = std::make_unique<std::string>( "black dog" );
     tuple2.set<3>( p );]: the tuple afterwards, and where [p] lives. *)
Definition set_black_dog : M (sized_tuple * loc) :=
  t <- tuple2 ;;
  p <- object (VUniqueString (Some "black dog"%string)) ;;
  t' <- set 3 p t ;;
  ret (t', p).

(** [auto p4 = pos<4>( storage2 ); tuple<int, int, int, double*,
     std::unique_ptr<std::string>, bool> tuple3( p4 );] with [storage2 = &d]:
     [d] lives at [address_of_d]. *)
Definition tuple3 (address_of_d : loc) : M sized_tuple :=
  storage2 <- object (VDoublePtr (Some address_of_d)) ;;
  tuple [TInt; TInt; TInt; TDoublePtr; TUniqueString; TBool] [pos 4 storage2].

(** ** Vocabulary of the statements *)

(** The initialiser at which the scan of [initialize<N, First>] stops: the
    first one, in argument order, whose index is [N]. *)
Fixpoint selected (N : Z) (xs : list position) : option position :=
  match xs with
  | [] => None
  | x :: rest => if index x =? N then Some x else selected N rest
  end.

(** The declared type of the element whose [s_index] is [Idx], in the class
    [sized_tuple<NDim, Types...>]. *)
Fixpoint declared (NDim Idx : Z) (Types : list ty) : option ty :=
  match Types with
  | [] => None
  | First :: Types' =>
      if Idx =? NDim - Z.of_nat (length Types') then Some First
      else declared NDim Idx Types'
  end.

(** A call that compiles on the tuple object [t] and whose argument is a
    live object of the declared type of its slot. *)
Definition call_ok (t : sized_tuple) (st : state) (c : call) : Prop :=
  match c with
  | call_get _ => True
  | call_set Idx arg_ =>
      1 <= Idx <= sizeof t /\
      exists v, objects st !! arg_ = Some v /\
                Types_of t !! Z.to_nat (Idx - 1) = Some (type_of v)
  end.

Definition sets_slot (Idx : Z) (c : call) : Prop :=
  match c with
  | call_get _ => False
  | call_set Idx' _ => Idx' = Idx
  end.



(** Every object of [st] is still there in [st'], with a value of the same
    type. *)
Definition keeps_types (st st' : state) : Prop :=
  forall l v, objects st !! l = Some v ->
    exists v', objects st' !! l = Some v' /\ type_of v' = type_of v.

(** ** Concrete inputs *)

(** The object [tuple2] of [main] once constructed, and a state in which the
    caller's [p], the owning pointer to "black dog", lives at location 3. *)
Definition tuple2_object : sized_tuple :=
  derived TBool (VBool false)
    (derived TShort (VShort 4)
       (derived TUniqueString (VUniqueString (Some "pink pig"%string)) anchor)).

Definition black_dog : val := VUniqueString (Some "black dog"%string).

Definition caller_state : state := mk_state {[3%nat := black_dog]} [].

(** The three arguments of [ctuple] as live objects at locations 0, 1, 2. *)
Definition three_literals : state :=
  mk_state (<[0%nat := VBool false]>
              (<[1%nat := VDouble double_3_14]>
                 (<[2%nat := VChar char_m]> ∅))) [].

(** Two owning pointers, at locations 0 and 1, and a [bool] at location 2. *)
Definition two_pointers : state :=
  mk_state (<[0%nat := VUniqueString (Some "first"%string)]>
              (<[1%nat := VUniqueString (Some "second"%string)]>
                 (<[2%nat := VBool true]> ∅))) [].

(** ** Further vocabulary *)

(** Every slot of the chain holds a value of its declared type. *)
Fixpoint well_typed (t : sized_tuple) : Prop :=
  match t with
  | anchor => True
  | derived First m_value super => type_of m_value = First /\ well_typed super
  end.

(** The slot indices of [tuple<T...>]. *)
Definition in_range (T : list ty) (p : position) : Prop :=
  1 <= index p <= Z.of_nat (length T).

(** * Properties *)

Example double_of_1 : double_of_Z 1 = 0x3FF0000000000000.
Proof. reflexivity. Qed.
Example double_of_3 : double_of_Z 3 = 0x4008000000000000.
Proof. reflexivity. Qed.
Example double_of_m2 : double_of_Z (-2) = 0xC000000000000000.
Proof. reflexivity. Qed.
Example trunc_3_14 : Z_of_double 0x40091EB851EB851F = Some 3.
Proof. reflexivity. Qed.
Example trunc_m2 : Z_of_double 0xC000000000000000 = Some (-2).
Proof. reflexivity. Qed.
Example short_of_4 : convert direct_initialization TShort (VInt 4) = Ok (VShort 4).
Proof. reflexivity. Qed.
Example short_of_70000 : convert assignment TShort (VInt 70000) = Ok (VShort 4464).
Proof. reflexivity. Qed.

(** ** The monad *)

Lemma bind_Ok {A B : Type} (m : M A) (f : A -> M B) st b st' :
  bind m f st = Ok (b, st') <->
  exists a st1, m st = Ok (a, st1) /\ f a st1 = Ok (b, st').
Proof.
  unfold bind. split.
  - destruct (m st) as [[a st1]| |]; [eauto | discriminate | discriminate].
  - intros (a & st1 & -> & H). exact H.
Qed.

Lemma bind_ret_Ok {A B : Type} (m : M A) (f : A -> M B) st a st1 :
  m st = Ok (a, st1) -> bind m f st = f a st1.
Proof. unfold bind. intros ->. reflexivity. Qed.

Lemma lift_Ok {A : Type} (o : outcome A) st a st' :
  lift o st = Ok (a, st') <-> o = Ok a /\ st' = st.
Proof.
  unfold lift. destruct o; split; intros H; try discriminate.
  - injection H as -> ->. auto.
  - destruct H as [[= ->] ->]. reflexivity.
  - destruct H as [[=] _].
  - destruct H as [[=] _].
Qed.

(** ** Values *)

Lemma ty_eqb_eq a b : ty_eqb a b = true <-> a = b.
Proof. destruct a, b; simpl; split; congruence. Qed.

Lemma ty_eqb_refl a : ty_eqb a a = true.
Proof. by apply ty_eqb_eq. Qed.

Lemma convert_same k v : convert k (type_of v) v = Ok v.
Proof. unfold convert. by rewrite ty_eqb_refl. Qed.

Lemma convert_value_init k First : convert k First (value_init First) = Ok (value_init First).
Proof. by destruct First. Qed.

Lemma fst_move_construct v : fst (move_construct v) = v.
Proof. by destruct v. Qed.

Lemma type_of_moved_from v : type_of (snd (move_construct v)) = type_of v.
Proof. by destruct v. Qed.

(** ** The scan *)

Lemma initialize_selected N First xs :
  initialize N First xs =
  match selected N xs with
  | Some x => v <- move_from (value x) ;; _ <- log_consumed x ;; ret v
  | None => ret (value_init First)
  end.
Proof.
  induction xs as [|x rest IH]; simpl; [done|].
  destruct (index x =? N); [done | exact IH].
Qed.

Lemma selected_Some N xs x :
  selected N xs = Some x -> x ∈ xs /\ index x = N.
Proof.
  induction xs as [|y rest IH]; simpl; [done|].
  destruct (Z.eqb_spec (index y) N) as [E|E].
  - intros [= ->]. split; [left | done].
  - intros H. destruct (IH H). split; [by right | done].
Qed.

Lemma selected_None N xs :
  selected N xs = None <-> N ∉ index <$> xs.
Proof.
  induction xs as [|y rest IH]; simpl.
  - split; [intros _; apply not_elem_of_nil | done].
  - rewrite not_elem_of_cons. destruct (Z.eqb_spec (index y) N) as [E|E].
    + split; [done | intros [? _]; congruence].
    + rewrite IH. split; [intros ?; split; [congruence | done] | tauto].
Qed.

Lemma selected_NoDup N xs x :
  NoDup (index <$> xs) -> x ∈ xs -> index x = N -> selected N xs = Some x.
Proof.
  induction xs as [|y rest IH]; simpl; intros Hnd Hin HN.
  - by apply elem_of_nil in Hin.
  - apply NoDup_cons in Hnd as [Hy Hnd].
    apply elem_of_cons in Hin as [->|Hin].
    + by rewrite (proj2 (Z.eqb_eq _ _) HN).
    + destruct (Z.eqb_spec (index y) N) as [E|E]; [|by apply IH].
      exfalso. apply Hy. rewrite E, <- HN. by apply list_elem_of_fmap_2.
Qed.

Lemma selected_Permutation N xs ys :
  xs ≡ₚ ys -> NoDup (index <$> xs) -> selected N xs = selected N ys.
Proof.
  intros Hp Hnd.
  destruct (selected N xs) as [x|] eqn:E.
  - apply selected_Some in E as [Hin HN]. symmetry.
    apply selected_NoDup; [by rewrite <- Hp | by rewrite <- Hp | done].
  - symmetry. apply selected_None. apply selected_None in E. by rewrite <- Hp.
Qed.

Lemma initialize_Some N First xs st p v :
  selected N xs = Some p -> objects st !! value p = Some v ->
  initialize N First xs st =
  Ok (fst (move_construct v),
      mk_state (<[value p := snd (move_construct v)]> (objects st))
               (consumed st ++ [p])).
Proof.
  intros Hs Hv. rewrite initialize_selected, Hs.
  unfold bind, move_from, bind, load. rewrite Hv. reflexivity.
Qed.

Lemma initialize_None N First xs st :
  selected N xs = None -> initialize N First xs st = Ok (value_init First, st).
Proof. intros Hs. rewrite initialize_selected, Hs. reflexivity. Qed.

Lemma initialize_Ok N First xs st e st' :
  initialize N First xs st = Ok (e, st') ->
  (selected N xs = None /\ e = value_init First /\ st' = st) \/
  (exists p v, selected N xs = Some p /\ objects st !! value p = Some v /\
     e = fst (move_construct v) /\
     st' = mk_state (<[value p := snd (move_construct v)]> (objects st))
                    (consumed st ++ [p])).
Proof.
  destruct (selected N xs) as [p|] eqn:Hs.
  - destruct (objects st !! value p) as [v|] eqn:Hv.
    + rewrite (initialize_Some _ _ _ _ _ _ Hs Hv). intros [= <- <-].
      right. eauto 6.
    + rewrite initialize_selected, Hs.
      unfold bind, move_from, bind, load. by rewrite Hv.
  - rewrite (initialize_None _ _ _ _ Hs). intros [= <- <-]. by left.
Qed.

(** ** The chain *)

Lemma sizeof_Types_of t : sizeof t = Z.of_nat (length (Types_of t)).
Proof. induction t as [|First m super IH]; simpl; lia. Qed.

Lemma sizeof_nonneg t : 0 <= sizeof t.
Proof. rewrite sizeof_Types_of. lia. Qed.


Lemma declared_lookup NDim Idx Types :
  NDim - Z.of_nat (length Types) < Idx <= NDim ->
  declared NDim Idx Types =
  Types !! Z.to_nat (Idx - (NDim - Z.of_nat (length Types)) - 1).
Proof.
  induction Types as [|F Types' IH]; simpl; [lia|]. intros H.
  destruct (Z.eqb_spec Idx (NDim - Z.of_nat (length Types'))) as [E|E].
  - subst Idx.
    replace (Z.to_nat _) with 0%nat by lia. reflexivity.
  - rewrite IH by lia.
    replace (Z.to_nat (Idx - (NDim - Z.of_nat (S (length Types'))) - 1))
      with (S (Z.to_nat (Idx - (NDim - Z.of_nat (length Types')) - 1))) by lia.
    reflexivity.
Qed.

Lemma declared_tuple (T : list ty) Idx :
  1 <= Idx <= Z.of_nat (length T) ->
  declared (Z.of_nat (length T)) Idx T = T !! Z.to_nat (Idx - 1).
Proof.
  intros H. rewrite declared_lookup by lia. f_equal. lia.
Qed.


(** ** Construction does not depend on the order of the initialisers *)

Lemma sized_tuple_ctor_Permutation NDim Types xs ys :
  xs ≡ₚ ys -> NoDup (index <$> xs) ->
  sized_tuple_ctor NDim Types xs = sized_tuple_ctor NDim Types ys.
Proof.
  intros Hp Hnd. induction Types as [|First Types' IH]; simpl; [done|].
  rewrite IH, !initialize_selected.
  by rewrite (selected_Permutation _ _ _ Hp Hnd).
Qed.

(** C2. For pairwise distinct slot indices, constructing the tuple from any
    permutation of the list of initialisers gives the same result: the same
    tuple, every slot holding the same value, and the same final state. *)
Theorem construct_order_independent (T : list ty) (xs ys : list position) (st : state) :
  NoDup (index <$> xs) ->
  xs ≡ₚ ys ->
  tuple T ys st = tuple T xs st.
Proof.
  intros Hnd Hp. unfold tuple.
  by rewrite (sized_tuple_ctor_Permutation _ _ _ _ Hp Hnd).
Qed.

(** ** What construction does *)

Lemma distinct_objects (x : list position) p q :
  NoDup (value <$> x) -> p ∈ x -> q ∈ x -> value p = value q -> p = q.
Proof.
  induction x as [|y rest IH]; simpl; intros Hnd Hp Hq E.
  - by apply elem_of_nil in Hp.
  - apply NoDup_cons in Hnd as [Hy Hnd].
    apply elem_of_cons in Hp as [->|Hp]; apply elem_of_cons in Hq as [->|Hq].
    + done.
    + exfalso. apply Hy. rewrite E. by apply list_elem_of_fmap_2.
    + exfalso. apply Hy. rewrite <- E. by apply list_elem_of_fmap_2.
    + by apply IH.
Qed.





(** ** Duplicate targets *)







(** ** No initialiser is consumed twice *)

Lemma sized_tuple_ctor_consumed NDim (x : list position) Types :
  forall st t st', sized_tuple_ctor NDim Types x st = Ok (t, st') ->
  exists new,
    consumed st' = consumed st ++ new /\
    NoDup (index <$> new) /\
    forall p, p ∈ new ->
      p ∈ x /\ NDim - Z.of_nat (length Types) < index p <= NDim.
Proof.
  induction Types as [|First Types' IH]; simpl; intros st t st' H.
  - injection H as <- <-. exists []. rewrite app_nil_r.
    split; [done|]. split; [constructor|]. intros p Hp. by apply elem_of_nil in Hp.
  - apply bind_Ok in H as (t1 & st1 & Hc & H).
    apply bind_Ok in H as (e & st2 & Hi & H).
    apply bind_Ok in H as (m & st3 & Hl & H).
    apply lift_Ok in Hl as [_ ->]. injection H as <- <-.
    destruct (IH _ _ _ Hc) as (new & Hnew & Hnd & Hin).
    apply initialize_Ok in Hi
      as [(_ & _ & ->)|(p & v & Hs & _ & _ & ->)].
    + exists new. split; [done|]. split; [done|].
      intros p Hp. destruct (Hin p Hp). split; [done | lia].
    + destruct (selected_Some _ _ _ Hs) as [Hpx Hpi].
      exists (new ++ [p]). simpl. rewrite Hnew, <- app_assoc.
      split; [done|]. split.
      * rewrite fmap_app. apply NoDup_app. split; [done|]. split.
        -- intros k Hk Hk'. apply list_elem_of_fmap in Hk as (q & -> & Hq).
           destruct (Hin q Hq) as [_ Hr].
           apply list_elem_of_fmap in Hk' as (q' & E & Hq').
           apply list_elem_of_singleton in Hq'. subst q'. lia.
        -- simpl. apply NoDup_singleton.
      * intros q Hq. apply elem_of_app in Hq as [Hq|Hq].
        -- destruct (Hin q Hq). split; [done | lia].
        -- apply list_elem_of_singleton in Hq. subst q. split; [done | lia].
Qed.

(** C8. During one construction every supplied initialiser has its value
    moved out at most once: the initialisers consumed by the scans of all
    slots are pairwise distinct, they are among those supplied, and when the
    initialisers refer to distinct objects no object is moved from twice. *)
Theorem initializer_consumed_at_most_once
    (T : list ty) (x : list position) (st : state) (t : sized_tuple) (st' : state) :
  tuple T x st = Ok (t, st') ->
  exists new,
    consumed st' = consumed st ++ new /\
    NoDup new /\
    (forall p, p ∈ new -> p ∈ x) /\
    (NoDup (value <$> x) -> NoDup (value <$> new)).
Proof.
  intros H. apply sized_tuple_ctor_consumed in H as (new & Hnew & Hnd & Hin).
  exists new. split; [done|]. split; [by apply (NoDup_fmap_1 index)|].
  split; [intros p Hp; by apply Hin|].
  intros Hnv. clear Hnew.
  induction new as [|p new IH]; simpl; [constructor|].
  rewrite fmap_cons in Hnd. apply NoDup_cons in Hnd as [Hp Hnd].
  apply NoDup_cons. split.
  - intros Hv. apply list_elem_of_fmap in Hv as (q & E & Hq).
    assert (p = q).
    { apply (distinct_objects x); [done| | |done].
      - apply Hin. left.
      - apply Hin. by right. }
    subst q. apply Hp. by apply list_elem_of_fmap_2.
  - apply IH; [done|]. intros q Hq. apply Hin. by right.
Qed.

(** ** [access], [set] and [get] *)

Lemma access_valid t Idx :
  1 <= Idx <= sizeof t ->
  exists First m super,
    access t Idx = Some (derived First m super) /\
    Types_of t !! Z.to_nat (Idx - 1) = Some First.
Proof.
  revert Idx. induction t as [|First m super IH]; simpl; intros Idx H; [lia|].
  destruct (Z.eqb_spec Idx 1) as [E|E].
  - subst Idx. eauto.
  - destruct (IH (Idx - 1)) as (F & m' & s & Ha & HT); [lia|].
    exists F, m', s. split; [done|].
    replace (Z.to_nat (Idx - 1)) with (S (Z.to_nat (Idx - 1 - 1))) by lia.
    exact HT.
Qed.

Lemma access_derived t Idx First m super :
  access t Idx = Some (derived First m super) -> 1 <= Idx <= sizeof t.
Proof.
  revert Idx. induction t as [|F m' s IH]; simpl; intros Idx.
  - destruct (Idx =? 1); discriminate.
  - pose proof (sizeof_nonneg s).
    destruct (Z.eqb_spec Idx 1) as [E|E]; [lia|].
    intros H'. apply IH in H'. lia.
Qed.

Lemma access_out_of_range t Idx :
  ~ 1 <= Idx <= sizeof t ->
  access t Idx = None \/ access t Idx = Some anchor.
Proof.
  intros H. destruct (access t Idx) as [[|F m s]|] eqn:E; [by right| |by left].
  apply access_derived in E. lia.
Qed.

Lemma Types_of_assign t Idx v : Types_of (assign_m_value t Idx v) = Types_of t.
Proof.
  revert Idx. induction t as [|F m s IH]; simpl; intros Idx; [done|].
  destruct (Idx =? 1); simpl; [done | by rewrite IH].
Qed.

Lemma sizeof_assign t Idx v : sizeof (assign_m_value t Idx v) = sizeof t.
Proof. by rewrite !sizeof_Types_of, Types_of_assign. Qed.

Lemma get_assign_eq NDim t Idx v :
  1 <= Idx <= sizeof t ->
  get NDim (NDim - sizeof t + Idx) (assign_m_value t Idx v) = Ok (const_xvalue v).
Proof.
  revert Idx. induction t as [|F m s IH]; simpl; intros Idx H; [lia|].
  destruct (Z.eqb_spec Idx 1) as [E|E]; simpl.
  - subst Idx. by rewrite (proj2 (Z.eqb_eq _ _)) by lia.
  - rewrite sizeof_assign. rewrite (proj2 (Z.eqb_neq _ _)) by lia.
    replace (NDim - (1 + sizeof s) + Idx) with (NDim - sizeof s + (Idx - 1)) by lia.
    rewrite IH by lia. reflexivity.
Qed.

Lemma get_assign_ne NDim t Idx J v :
  J <> NDim - sizeof t + Idx ->
  get NDim J (assign_m_value t Idx v) = get NDim J t.
Proof.
  revert Idx. induction t as [|F m s IH]; simpl; intros Idx H; [done|].
  destruct (Z.eqb_spec Idx 1) as [E|E]; simpl.
  - subst Idx. by rewrite (proj2 (Z.eqb_neq _ _)) by lia.
  - rewrite sizeof_assign. destruct (J =? NDim - sizeof s); [done|].
    rewrite IH by lia. reflexivity.
Qed.

Lemma set_spec t st Idx arg_ v :
  1 <= Idx <= sizeof t ->
  objects st !! arg_ = Some v ->
  Types_of t !! Z.to_nat (Idx - 1) = Some (type_of v) ->
  set Idx arg_ t st =
  Ok (assign_m_value t Idx v,
      mk_state (<[arg_ := snd (move_construct v)]> (objects st)) (consumed st)).
Proof.
  intros HI Hv HT.
  destruct (access_valid t Idx HI) as (First & m & super & Ha & HT').
  assert (First = type_of v) by congruence. subst First.
  unfold set. destruct t as [|F0 m0 s0]; [simpl in HI; lia|]. rewrite Ha.
  unfold bind, move_assign, bind, load. rewrite Hv.
  rewrite fst_move_construct. unfold lift. by rewrite convert_same.
Qed.

Lemma set_Ok t st Idx arg_ t' st' :
  set Idx arg_ t st = Ok (t', st') ->
  (t = anchor /\ t' = anchor /\ st' = st) \/
  (exists a v First,
     1 <= Idx <= sizeof t /\
     Types_of t !! Z.to_nat (Idx - 1) = Some First /\
     objects st !! arg_ = Some a /\
     convert assignment First (fst (move_construct a)) = Ok v /\
     t' = assign_m_value t Idx v /\
     st' = mk_state (<[arg_ := snd (move_construct a)]> (objects st)) (consumed st)).
Proof.
  unfold set. destruct t as [|F0 m0 s0].
  - intros [= <- <-]. by left.
  - destruct (access (derived F0 m0 s0) Idx) as [[|First m super]|] eqn:Ha;
      [discriminate| |discriminate].
    intros H. right.
    pose proof (access_derived _ _ _ _ _ Ha) as HI.
    destruct (access_valid _ _ HI) as (F & m' & s' & Ha' & HT).
    assert (F = First) by congruence. subst F.
    unfold bind, move_assign, bind, load in H.
    destruct (objects st !! arg_) as [a|] eqn:Hv; [|discriminate].
    unfold lift in H.
    destruct (convert assignment First (fst (move_construct a))) as [v| |] eqn:Hc;
      try discriminate.
    simpl in H. injection H as <- <-. exists a, v, First. done.
Qed.

Lemma keeps_types_refl st : keeps_types st st.
Proof. intros l v H. eauto. Qed.

Lemma keeps_types_trans st1 st2 st3 :
  keeps_types st1 st2 -> keeps_types st2 st3 -> keeps_types st1 st3.
Proof.
  intros H12 H23 l v H. destruct (H12 l v H) as (v' & H' & E').
  destruct (H23 l v' H') as (v'' & H'' & E''). exists v''. split; [done|congruence].
Qed.

Lemma set_preserves t st Idx arg_ t' st' :
  set Idx arg_ t st = Ok (t', st') ->
  Types_of t' = Types_of t /\ keeps_types st st'.
Proof.
  intros H. apply set_Ok in H
    as [(-> & -> & ->)|(a & v & First & _ & _ & Ha & _ & -> & ->)].
  - split; [done | apply keeps_types_refl].
  - split; [apply Types_of_assign|]. intros l w Hw. simpl.
    destruct (decide (arg_ = l)) as [->|Hne].
    + rewrite lookup_insert_eq. eexists. split; [done|].
      rewrite type_of_moved_from. congruence.
    + rewrite lookup_insert_ne by done. eauto.
Qed.

Lemma call_ok_preserved t st t' st' c :
  Types_of t' = Types_of t -> keeps_types st st' ->
  call_ok t st c -> call_ok t' st' c.
Proof.
  intros HT Hk. destruct c as [Idx|Idx arg_]; simpl; [done|].
  intros (HI & v & Hv & Hty). rewrite !sizeof_Types_of, HT in *.
  split; [done|]. destruct (Hk _ _ Hv) as (v' & Hv' & E).
  exists v'. split; [done | congruence].
Qed.

(** [get<Idx>] compiles and returns, whatever [Idx] is. *)
Lemma get_total NDim Idx t : exists e, get NDim Idx t = Ok e.
Proof.
  induction t as [|First m super [e IH]]; simpl; [eauto|].
  destruct (Idx =? NDim - sizeof super); [eauto|]. rewrite IH. eauto.
Qed.

Lemma run_cons_get Idx calls t st e :
  get (sizeof t) Idx t = Ok e ->
  run (call_get Idx :: calls) t st =
  match run calls t st with
  | Ok (r, st') => Ok ((fst r, e :: snd r), st')
  | IllFormed => IllFormed
  | Undefined => Undefined
  end.
Proof.
  intros H. simpl. unfold bind at 1. unfold lift. rewrite H.
  unfold bind. by destruct (run calls t st) as [[r st']| |].
Qed.

Lemma run_preserves calls :
  forall t st t' r st', run calls t st = Ok ((t', r), st') ->
  Types_of t' = Types_of t /\ keeps_types st st'.
Proof.
  induction calls as [|[Idx|Idx arg_] calls IH]; intros t st t' r st' H.
  - injection H as <- _ <-. split; [done | apply keeps_types_refl].
  - destruct (get_total (sizeof t) Idx t) as [e He].
    rewrite (run_cons_get _ _ _ _ _ He) in H.
    destruct (run calls t st) as [[[t1 r1] st1]| |] eqn:Hr; try discriminate.
    injection H as <- _ <-. by apply (IH _ _ _ _ _ Hr).
  - simpl in H. apply bind_Ok in H as (t1 & st1 & Hs & H).
    destruct (set_preserves _ _ _ _ _ _ Hs) as [HT Hk].
    destruct (IH _ _ _ _ _ H) as [HT' Hk'].
    split; [congruence | by apply (keeps_types_trans _ st1)].
Qed.

Lemma run_total calls :
  forall t st, Forall (call_ok t st) calls ->
  exists t' r st', run calls t st = Ok ((t', r), st').
Proof.
  induction calls as [|[Idx|Idx arg_] calls IH]; intros t st Hok.
  - by exists t, [], st.
  - apply Forall_cons in Hok as [_ Hok].
    destruct (get_total (sizeof t) Idx t) as [e He].
    destruct (IH t st Hok) as (t' & r & st' & Hr).
    exists t', (e :: r), st'. by rewrite (run_cons_get _ _ _ _ _ He), Hr.
  - apply Forall_cons in Hok as [(HI & v & Hv & Hty) Hok].
    pose proof (set_spec t st Idx arg_ v HI Hv Hty) as Hs.
    destruct (set_preserves _ _ _ _ _ _ Hs) as [HT Hk].
    destruct (IH _ _ (Forall_impl _ _ _ Hok
                        (fun c => call_ok_preserved _ _ _ _ c HT Hk)))
      as (t' & r & st' & Hr).
    exists t', r, st'. simpl. by rewrite (bind_ret_Ok _ _ _ _ _ Hs).
Qed.

Lemma run_app_Ok pre post :
  forall t st t' r st', run (pre ++ post) t st = Ok ((t', r), st') ->
  exists t1 r1 st1 r2,
    run pre t st = Ok ((t1, r1), st1) /\ run post t1 st1 = Ok ((t', r2), st').
Proof.
  induction pre as [|[Idx|Idx arg_] pre IH]; intros t st t' r st' H.
  - exists t, [], st, r. done.
  - destruct (get_total (sizeof t) Idx t) as [e He]. simpl app in H.
    rewrite (run_cons_get _ _ _ _ _ He) in H.
    destruct (run (pre ++ post) t st) as [[[t2 r2] st2]| |] eqn:Hr; try discriminate.
    injection H as <- _ <-.
    destruct (IH _ _ _ _ _ Hr) as (t1 & r1 & st1 & r2' & H1 & H2).
    exists t1, (e :: r1), st1, r2'.
    by rewrite (run_cons_get _ _ _ _ _ He), H1.
  - simpl in H. apply bind_Ok in H as (t1 & st1 & Hs & H).
    destruct (IH _ _ _ _ _ H) as (t2 & r1 & st2 & r2 & H1 & H2).
    exists t2, r1, st2, r2. simpl. by rewrite (bind_ret_Ok _ _ _ _ _ Hs).
Qed.

Lemma set_frame t st Idx arg_ t' st' J :
  set Idx arg_ t st = Ok (t', st') -> J <> Idx ->
  get (sizeof t') J t' = get (sizeof t) J t.
Proof.
  intros H Hne. apply set_Ok in H
    as [(-> & -> & ->)|(a & v & First & _ & _ & _ & _ & -> & ->)]; [done|].
  rewrite sizeof_assign. apply get_assign_ne. lia.
Qed.

Lemma run_frame calls J :
  forall t st t' r st', run calls t st = Ok ((t', r), st') ->
  Forall (fun c => ~ sets_slot J c) calls ->
  get (sizeof t') J t' = get (sizeof t) J t.
Proof.
  induction calls as [|[Idx|Idx arg_] calls IH]; intros t st t' r st' H Hno.
  - by injection H as <- _ <-.
  - apply Forall_cons in Hno as [_ Hno].
    destruct (get_total (sizeof t) Idx t) as [e He].
    rewrite (run_cons_get _ _ _ _ _ He) in H.
    destruct (run calls t st) as [[[t1 r1] st1]| |] eqn:Hr; try discriminate.
    injection H as <- _ <-. by apply (IH _ _ _ _ _ Hr).
  - apply Forall_cons in Hno as [Hne Hno]. simpl in Hne.
    simpl in H. apply bind_Ok in H as (t1 & st1 & Hs & H).
    rewrite (IH _ _ _ _ _ H Hno). by apply (set_frame _ _ _ _ _ _ _ Hs).
Qed.

(** For the [s_index] of a level, [get] returns a reference to its slot. *)
Lemma get_valid NDim t Idx :
  NDim - sizeof t < Idx <= NDim ->
  exists v, get NDim Idx t = Ok (const_xvalue v).
Proof.
  induction t as [|First m super IH]; simpl; intros H; [lia|].
  destruct (Z.eqb_spec Idx (NDim - sizeof super)) as [E|E]; [eauto|].
  destruct IH as [v Hv]; [lia|]. rewrite Hv. eauto.
Qed.

(** For any other index the lookup ends in the recursion anchor. *)
Lemma get_out_of_range NDim t Idx :
  ~ NDim - sizeof t < Idx <= NDim ->
  get NDim Idx t =
  Ok match t with
     | anchor => prvalue (VInt 0)
     | derived _ _ _ => dangling (VInt 0)
     end.
Proof.
  induction t as [|First m super IH]; simpl; intros H; [done|].
  pose proof (sizeof_nonneg super).
  rewrite (proj2 (Z.eqb_neq _ _)) by lia.
  rewrite IH by lia. by destruct super.
Qed.

(** On a tuple that is not empty, [set<Idx>] does not compile for an [Idx]
    outside [1..N]. *)
Lemma set_out_of_range t st Idx arg_ :
  t <> anchor -> ~ 1 <= Idx <= sizeof t -> set Idx arg_ t st = IllFormed.
Proof.
  intros Ht HI. unfold set. destruct t as [|F m s]; [done|].
  by destruct (access_out_of_range (derived F m s) Idx HI) as [-> | ->].
Qed.

(** C3. On a tuple object, after any sequence of calls whose [set]s each pass
    a live object of the declared type of a valid slot, a slot that no call
    set still holds what it held before, and a slot that was set holds the
    value installed by the last [set] on it: [get] returns it right after
    that [set] and still at the end. *)
Theorem get_returns_last_installed
    (t : sized_tuple) (st : state) (calls : list call) :
  Forall (call_ok t st) calls ->
  exists t' r st',
    run calls t st = Ok ((t', r), st') /\
    forall i, 1 <= i <= sizeof t ->
      (Forall (fun c => ~ sets_slot i c) calls ->
         get (sizeof t') i t' = get (sizeof t) i t) /\
      (forall pre arg_ post,
         calls = pre ++ call_set i arg_ :: post ->
         Forall (fun c => ~ sets_slot i c) post ->
         exists t1 r1 st1 v t2 st2,
           run pre t st = Ok ((t1, r1), st1) /\
           objects st1 !! arg_ = Some v /\
           set i arg_ t1 st1 = Ok (t2, st2) /\
           get (sizeof t2) i t2 = Ok (const_xvalue v) /\
           get (sizeof t') i t' = Ok (const_xvalue v)).
Proof.
  intros Hok. destruct (run_total calls t st Hok) as (t' & r & st' & Hr).
  exists t', r, st'. split; [exact Hr|]. intros i Hi. split.
  - intros Hno. by apply (run_frame calls i _ _ _ _ _ Hr).
  - intros pre arg_ post -> Hno.
    destruct (run_app_Ok _ _ _ _ _ _ _ Hr) as (t1 & r1 & st1 & r2 & Hpre & Hpost).
    destruct (run_preserves _ _ _ _ _ _ Hpre) as [HT Hk].
    apply Forall_app in Hok as [_ Hok]. apply Forall_cons in Hok as [Hc _].
    apply (call_ok_preserved _ _ t1 st1 _ HT Hk) in Hc as (HI & v & Hv & Hty).
    pose proof (set_spec t1 st1 i arg_ v HI Hv Hty) as Hs.
    simpl in Hpost. rewrite (bind_ret_Ok _ _ _ _ _ Hs) in Hpost.
    assert (Hg : get (sizeof (assign_m_value t1 i v)) i (assign_m_value t1 i v)
                 = Ok (const_xvalue v)).
    { rewrite sizeof_assign.
      replace i with (sizeof t1 - sizeof t1 + i) at 1 by lia.
      by apply get_assign_eq. }
    eexists t1, r1, st1, v, _, _. split; [done|]. split; [done|].
    split; [exact Hs|]. split; [exact Hg|].
    by rewrite (run_frame post i _ _ _ _ _ Hpost Hno).
Qed.

(** C7. A [set] on a valid slot [Idx] with a live object of the declared type
    of that slot succeeds and changes that slot only: for every other index
    [get] returns afterwards what it returned before, and the declared types
    of the tuple are the same. *)
Theorem set_changes_only_its_slot
    (t : sized_tuple) (st : state) (Idx : Z) (arg_ : loc) (v : val) :
  1 <= Idx <= sizeof t ->
  objects st !! arg_ = Some v ->
  Types_of t !! Z.to_nat (Idx - 1) = Some (type_of v) ->
  exists t' st',
    set Idx arg_ t st = Ok (t', st') /\
    Types_of t' = Types_of t /\
    forall J, J <> Idx -> get (sizeof t') J t' = get (sizeof t) J t.
Proof.
  intros HI Hv HT. pose proof (set_spec t st Idx arg_ v HI Hv HT) as H.
  eexists _, _. split; [exact H|]. split.
  - by destruct (set_preserves _ _ _ _ _ _ H).
  - intros J HJ. by apply (set_frame _ _ _ _ _ _ _ H).
Qed.



(** C10. [get] is read-only.  Any number of calls of [get] with valid
    indices leaves the tuple object and every other object as they were; each
    call returns what [get] returns on that unchanged tuple, a const
    reference to the slot; and initialising an object from that reference
    copies the value and leaves the slot holding it. *)
Theorem get_is_read_only (t : sized_tuple) (st : state) (idxs : list Z) :
  Forall (fun i => 1 <= i <= sizeof t) idxs ->
  exists r,
    run (call_get <$> idxs) t st = Ok ((t, r), st) /\
    Forall2 (fun i e =>
               get (sizeof t) i t = Ok e /\
               exists v, e = const_xvalue v /\
                 forall c e', init_from e = Ok (c, e') -> c = v /\ e' = e)
            idxs r.
Proof.
  induction idxs as [|i idxs IH]; intros Hv.
  - exists []. split; [done | constructor].
  - apply Forall_cons in Hv as [Hi Hv]. destruct (IH Hv) as (r & Hr & Hall).
    destruct (get_valid (sizeof t) t i) as [v Hg]; [lia|].
    exists (const_xvalue v :: r). split.
    + rewrite fmap_cons, (run_cons_get _ _ _ _ _ Hg), Hr. reflexivity.
    + constructor; [|exact Hall]. split; [exact Hg|].
      exists v. split; [done|]. intros c e'. simpl.
      destruct v; simpl; intros [= <- <-]; done.
Qed.

(** ** The scenarios of [main] *)

(** C9. The tuple of declared types (bool, char, double, int) constructed
    from [pos<1>( false )], [pos<3>( 3.14 )] and [pos<2>( 'm' )] holds
    [false] in slot 1, ['m'] in slot 2, [3.14] in slot 3 and the
    value-initialised [int], 0, in slot 4; these are the comparisons the
    static assertions of [main] make. *)
Theorem ctuple_scenario :
  exists t st,
    ctuple empty_state = Ok (t, st) /\
    Types_of t = [TBool; TChar; TDouble; TInt] /\
    get 4 1 t = Ok (const_xvalue (VBool false)) /\
    get 4 2 t = Ok (const_xvalue (VChar char_m)) /\
    get 4 3 t = Ok (const_xvalue (VDouble double_3_14)) /\
    get 4 4 t = Ok (const_xvalue (value_init TInt)) /\
    value_init TInt = VInt 0 /\
    double_eq double_3_14 double_3_14 = true.
Proof.
  eexists _, _. split; [vm_compute; reflexivity|].
  repeat split.
Qed.

(** C4, at an input on which the code departs from the claim.  On the tuple
    [ctuple] of four slots, [get<5>] and [get<0>] compile: the lookup passes
    every level and ends in the [get] of the recursion anchor, the one marked
    as never called, whose [int] 0 comes back as a reference to a dead
    temporary.  The sibling [set<5>] and [set<0>] are rejected.  On the empty
    tuple, which is the anchor alone, [get<1>] is that 0 and [set<1>] does
    nothing. *)
Theorem get_out_of_range_reaches_anchor :
  exists t st,
    ctuple empty_state = Ok (t, st) /\
    sizeof t = 4 /\
    get 4 5 t = Ok (dangling (VInt 0)) /\
    get 4 0 t = Ok (dangling (VInt 0)) /\
    (forall arg_, set 5 arg_ t st = IllFormed) /\
    (forall arg_, set 0 arg_ t st = IllFormed) /\
    get 0 1 anchor = Ok (prvalue (VInt 0)) /\
    (forall arg_, set 1 arg_ anchor st = Ok (anchor, st)).
Proof.
  eexists _, _. split; [vm_compute; reflexivity|].
  repeat split.
Qed.

Example tuple2_constructed :
  exists st, tuple2 empty_state = Ok (tuple2_object, st).
Proof. eexists. vm_compute. reflexivity. Qed.

Example set_black_dog_result :
  exists t p st,
    set_black_dog empty_state = Ok ((t, p), st) /\
    get 3 3 t = Ok (const_xvalue black_dog) /\
    objects st !! p = Some (VUniqueString None).
Proof. eexists _, _, _. split; [vm_compute; reflexivity|]. split; reflexivity. Qed.

(** [tuple3.get<4>()] is the pointer [storage2]; the other slots are
    value-initialised. *)
Example tuple3_scenario :
  exists t st,
    tuple3 7 empty_state = Ok (t, st) /\
    get 6 4 t = Ok (const_xvalue (VDoublePtr (Some 7%nat))) /\
    get 6 5 t = Ok (const_xvalue (VUniqueString None)) /\
    init_from (const_xvalue (VDoublePtr (Some 7%nat)))
    = Ok (VDoublePtr (Some 7%nat), const_xvalue (VDoublePtr (Some 7%nat))).
Proof. eexists _, _. split; [vm_compute; reflexivity|]. repeat split. Qed.

(** One named owning pointer supplied for both slots: slot 2, initialised
    first, takes the pointee, and slot 1 is initialised from the emptied
    pointer. *)
Example one_owner_for_two_slots :
  exists st,
    tuple [TUniqueString; TUniqueString] [pos 1 3%nat; pos 2 3%nat] caller_state
    = Ok (derived TUniqueString (VUniqueString None)
            (derived TUniqueString black_dog anchor), st) /\
    objects st !! 3%nat = Some (VUniqueString None).
Proof. eexists. split; [vm_compute; reflexivity | reflexivity]. Qed.

(** ** The theorems at concrete inputs *)



Lemma construct_order_independent_witness :
  NoDup (index <$> [pos 1 0; pos 3 1; pos 2 2]) /\
  [pos 1 0; pos 3 1; pos 2 2] ≡ₚ [pos 2 2; pos 1 0; pos 3 1] /\
  tuple [TBool; TChar; TDouble; TInt] [pos 2 2; pos 1 0; pos 3 1] three_literals =
  tuple [TBool; TChar; TDouble; TInt] [pos 1 0; pos 3 1; pos 2 2] three_literals.
Proof.
  assert (Hni : NoDup (index <$> [pos 1 0; pos 3 1; pos 2 2])) by compute_done.
  assert (Hp : [pos 1 0; pos 3 1; pos 2 2] ≡ₚ [pos 2 2; pos 1 0; pos 3 1])
    by exact (Permutation_app_comm [pos 1 0; pos 3 1] [pos 2 2]).
  split; [exact Hni|]. split; [exact Hp|].
  exact (construct_order_independent _ _ _ three_literals Hni Hp).
Defined.

Lemma get_returns_last_installed_witness :
  Forall (call_ok tuple2_object caller_state) [call_set 3 3%nat; call_get 3] /\
  exists t' r st',
    run [call_set 3 3%nat; call_get 3] tuple2_object caller_state
    = Ok ((t', r), st') /\
    get (sizeof t') 3 t' = Ok (const_xvalue black_dog).
Proof.
  assert (Hok : Forall (call_ok tuple2_object caller_state)
                  [call_set 3 3%nat; call_get 3]).
  { constructor; [|constructor; [exact I | constructor]].
    simpl. split; [lia|]. exists black_dog. split; reflexivity. }
  split; [exact Hok|].
  destruct (get_returns_last_installed tuple2_object caller_state _ Hok)
    as (t' & r & st' & Hr & H).
  exists t', r, st'. split; [exact Hr|].
  destruct (H 3) as [_ H2]; [simpl; lia|].
  destruct (H2 [] 3%nat [call_get 3] eq_refl)
    as (t1 & r1 & st1 & v & t2 & st2 & Hpre & Hv & _ & _ & Hg).
  { constructor; [|constructor]. simpl. tauto. }
  injection Hpre as <- _ <-.
  assert (v = black_dog) as ->; [|exact Hg].
  change (Some black_dog = Some v) in Hv. congruence.
Defined.



Lemma set_changes_only_its_slot_witness :
  1 <= 3 <= sizeof tuple2_object /\
  objects caller_state !! 3%nat = Some black_dog /\
  Types_of tuple2_object !! Z.to_nat (3 - 1) = Some (type_of black_dog) /\
  exists t' st',
    set 3 3%nat tuple2_object caller_state = Ok (t', st') /\
    get (sizeof t') 1 t' = Ok (const_xvalue (VBool false)) /\
    get (sizeof t') 2 t' = Ok (const_xvalue (VShort 4)).
Proof.
  assert (HI : 1 <= 3 <= sizeof tuple2_object) by (simpl; lia).
  split; [exact HI|]. split; [reflexivity|]. split; [reflexivity|].
  destruct (set_changes_only_its_slot tuple2_object caller_state 3 3%nat
              black_dog HI eq_refl eq_refl) as (t' & st' & Hs & _ & H).
  exists t', st'. split; [exact Hs|]. split.
  - rewrite (H 1); [reflexivity | lia].
  - rewrite (H 2); [reflexivity | lia].
Defined.

Lemma initializer_consumed_at_most_once_witness :
  exists t st' new,
    tuple [TBool; TUniqueString] [pos 2 0; pos 2 1; pos 1 2] two_pointers
    = Ok (t, st') /\
    consumed st' = consumed two_pointers ++ new /\
    NoDup new /\
    (forall p, p ∈ new -> p ∈ [pos 2 0; pos 2 1; pos 1 2]).
Proof.
  destruct (initializer_consumed_at_most_once
              [TBool; TUniqueString] [pos 2 0; pos 2 1; pos 1 2] two_pointers _ _
              ltac:(vm_compute; reflexivity))
    as (new & Hnew & Hnd & Hin & _).
  eexists _, _, new. split; [vm_compute; reflexivity|].
  split; [exact Hnew|]. split; [exact Hnd | exact Hin].
Defined.


Lemma get_is_read_only_witness :
  Forall (fun i => 1 <= i <= sizeof tuple2_object) [3; 3; 1] /\
  exists r,
    run (call_get <$> [3; 3; 1]) tuple2_object caller_state
    = Ok ((tuple2_object, r), caller_state) /\
    Forall2 (fun i e => get (sizeof tuple2_object) i tuple2_object = Ok e)
            [3; 3; 1] r.
Proof.
  assert (Hv : Forall (fun i => 1 <= i <= sizeof tuple2_object) [3; 3; 1]).
  { repeat constructor; simpl; lia. }
  split; [exact Hv|].
  destruct (get_is_read_only tuple2_object caller_state [3; 3; 1] Hv)
    as (r & Hr & Hall).
  exists r. split; [exact Hr|].
  eapply Forall2_impl; [exact Hall|]. intros i e [H _]. exact H.
Defined.

(** * Further properties of the code *)

(** ** Initialisers that no slot reads *)

Lemma sized_tuple_ctor_ext_range NDim Types xs ys :
  (forall N, NDim - Z.of_nat (length Types) < N <= NDim ->
     selected N xs = selected N ys) ->
  sized_tuple_ctor NDim Types xs = sized_tuple_ctor NDim Types ys.
Proof.
  induction Types as [|First Types' IH]; simpl; intros H; [done|].
  rewrite IH by (intros N HN; apply H; lia).
  rewrite !initialize_selected, H by lia. reflexivity.
Qed.

Lemma selected_filter_keep (P : position -> Prop) `{forall p, Decision (P p)}
    N (l : list position) :
  (forall p, index p = N -> P p) ->
  selected N (filter P l) = selected N l.
Proof.
  intros HP. induction l as [|y l IH]; [done|].
  rewrite filter_cons. destruct (decide (P y)) as [Hy|Hy]; simpl.
  - by rewrite IH.
  - rewrite IH. destruct (Z.eqb_spec (index y) N) as [E|E]; [|done].
    exfalso. by apply Hy, HP.
Qed.

#[local] Instance in_range_dec T p : Decision (in_range T p).
Proof. unfold in_range. apply _. Defined.

(** X1. An initialiser whose index is no slot of the tuple is accepted and
    ignored: constructing with the list from which these initialisers are
    removed gives the same outcome, tuple and final state alike. *)
Theorem initializers_for_no_slot_are_ignored
    (T : list ty) (x : list position) (st : state) :
  tuple T (filter (in_range T) x) st = tuple T x st.
Proof.
  unfold tuple. apply (f_equal (fun f => f st)).
  apply sized_tuple_ctor_ext_range. intros N HN.
  apply selected_filter_keep. intros p <-. unfold in_range. lia.
Qed.

Lemma sized_tuple_ctor_no_match NDim (x : list position) st :
  forall Types,
  (forall k, NDim - Z.of_nat (length Types) < k <= NDim -> selected k x = None) ->
  exists t,
    sized_tuple_ctor NDim Types x st = Ok (t, st) /\
    Types_of t = Types /\
    forall k First, declared NDim k Types = Some First ->
      get NDim k t = Ok (const_xvalue (value_init First)).
Proof.
  induction Types as [|First Types' IH]; intros Hno.
  - exists anchor. by simpl.
  - destruct IH as (t1 & Hc & HT & Hget); [intros k Hk; apply Hno; simpl; lia|].
    assert (Hsz : sizeof t1 = Z.of_nat (length Types'))
      by (by rewrite sizeof_Types_of, HT).
    exists (derived First (value_init First) t1).
    assert (Hk0 : selected (NDim - Z.of_nat (length Types')) x = None)
      by (apply Hno; simpl; lia).
    simpl sized_tuple_ctor. rewrite (bind_ret_Ok _ _ _ _ _ Hc).
    rewrite (bind_ret_Ok _ _ _ _ _ (initialize_None _ First _ _ Hk0)).
    unfold bind at 1. unfold lift. rewrite convert_value_init.
    split; [reflexivity|]. split; [simpl; by rewrite HT|].
    intros k F. simpl. rewrite Hsz.
    destruct (k =? NDim - Z.of_nat (length Types')); [by intros [= <-]|].
    intros Hd. by rewrite (Hget _ _ Hd).
Qed.

(** X2. When no initialiser targets a slot of the tuple, in particular when
    there is none at all, construction succeeds whatever the store holds,
    even if the initialisers refer to dead objects; it changes nothing in the
    state, and every slot holds the value-initialised value of its declared
    type. *)
Theorem construct_without_matching_initializer
    (T : list ty) (x : list position) (st : state) :
  (forall p, p ∈ x -> ~ in_range T p) ->
  exists t,
    tuple T x st = Ok (t, st) /\
    Types_of t = T /\
    forall k First, 1 <= k <= Z.of_nat (length T) ->
      T !! Z.to_nat (k - 1) = Some First ->
      get (Z.of_nat (length T)) k t = Ok (const_xvalue (value_init First)).
Proof.
  intros Hout.
  destruct (sized_tuple_ctor_no_match (Z.of_nat (length T)) x st T)
    as (t & Hc & HT & Hget).
  { intros k Hk. destruct (selected k x) as [p|] eqn:Hs; [|done].
    apply selected_Some in Hs as [Hp <-]. exfalso.
    apply (Hout p Hp). unfold in_range. lia. }
  exists t. split; [exact Hc|]. split; [exact HT|].
  intros k First Hk HF. apply Hget. by rewrite declared_tuple.
Qed.

Lemma construct_without_matching_initializer_witness :
  (forall p, p ∈ [pos 9 5%nat; pos 0 6%nat] -> ~ in_range [TInt; TUniqueString] p) /\
  exists t,
    tuple [TInt; TUniqueString] [pos 9 5%nat; pos 0 6%nat] empty_state
    = Ok (t, empty_state) /\
    get 2 1 t = Ok (const_xvalue (VInt 0)) /\
    get 2 2 t = Ok (const_xvalue (VUniqueString None)).
Proof.
  assert (Hout : forall p, p ∈ [pos 9 5%nat; pos 0 6%nat] ->
                   ~ in_range [TInt; TUniqueString] p).
  { intros p Hp. unfold in_range.
    repeat (apply elem_of_cons in Hp as [->|Hp]); [..|by apply elem_of_nil in Hp];
      simpl; lia. }
  split; [exact Hout|].
  destruct (construct_without_matching_initializer [TInt; TUniqueString]
              [pos 9 5%nat; pos 0 6%nat] empty_state Hout) as (t & Hc & _ & Hget).
  exists t. split; [exact Hc|]. split.
  - apply (Hget 1 TInt); [simpl; lia | reflexivity].
  - apply (Hget 2 TUniqueString); [simpl; lia | reflexivity].
Defined.

(** ** What construction does to the caller's objects *)

Lemma initialize_keeps_objects N First xs st e st' :
  initialize N First xs st = Ok (e, st') ->
  dom (objects st') = dom (objects st) /\
  keeps_types st st' /\
  forall l, l ∉ value <$> xs -> objects st' !! l = objects st !! l.
Proof.
  intros H. apply initialize_Ok in H
    as [(_ & _ & ->)|(p & v & Hs & Hv & _ & ->)].
  - split; [done|]. split; [apply keeps_types_refl | done].
  - apply selected_Some in Hs as [Hp _]. simpl. split; [|split].
    + apply dom_insert_lookup_L. by eexists.
    + intros l w Hw. simpl. destruct (decide (value p = l)) as [<-|Hne].
      * rewrite lookup_insert_eq. eexists. split; [done|].
        rewrite type_of_moved_from. congruence.
      * rewrite lookup_insert_ne by done. eauto.
    + intros l Hl. apply lookup_insert_ne. intros <-.
      apply Hl. by apply list_elem_of_fmap_2.
Qed.

Lemma sized_tuple_ctor_keeps_objects NDim (x : list position) Types :
  forall st t st', sized_tuple_ctor NDim Types x st = Ok (t, st') ->
  dom (objects st') = dom (objects st) /\
  keeps_types st st' /\
  forall l, l ∉ value <$> x -> objects st' !! l = objects st !! l.
Proof.
  induction Types as [|First Types' IH]; simpl; intros st t st' H.
  - injection H as <- <-. split; [done|]. split; [apply keeps_types_refl | done].
  - apply bind_Ok in H as (t1 & st1 & Hc & H).
    apply bind_Ok in H as (e & st2 & Hi & H).
    apply bind_Ok in H as (m & st3 & Hl & H).
    apply lift_Ok in Hl as [_ ->]. injection H as <- <-.
    destruct (IH _ _ _ Hc) as (Hd1 & Hk1 & Hf1).
    destruct (initialize_keeps_objects _ _ _ _ _ _ Hi) as (Hd2 & Hk2 & Hf2).
    split; [congruence|]. split; [by apply (keeps_types_trans _ st1)|].
    intros l Hl. by rewrite Hf2, Hf1.
Qed.

(** X3. A construction that runs neither creates nor destroys an object of
    the caller: the same locations are live afterwards, each holds a value of
    the type it held before, and an object that no initialiser refers to is
    unchanged. *)
Theorem construction_keeps_the_callers_objects
    (T : list ty) (x : list position) (st : state) (t : sized_tuple) (st' : state) :
  tuple T x st = Ok (t, st') ->
  dom (objects st') = dom (objects st) /\
  keeps_types st st' /\
  forall l, l ∉ value <$> x -> objects st' !! l = objects st !! l.
Proof. apply sized_tuple_ctor_keeps_objects. Qed.

Lemma construction_keeps_the_callers_objects_witness :
  exists t st',
    tuple [TBool; TUniqueString] [pos 2 0; pos 2 1; pos 1 2] two_pointers
    = Ok (t, st') /\
    dom (objects st') = dom (objects two_pointers) /\
    objects st' !! 1%nat = objects two_pointers !! 1%nat.
Proof.
  destruct (construction_keeps_the_callers_objects
              [TBool; TUniqueString] [pos 2 0; pos 2 1; pos 1 2] two_pointers _ _
              ltac:(vm_compute; reflexivity)) as (Hd & _ & _).
  eexists _, _. split; [vm_compute; reflexivity|]. split; [exact Hd|].
  reflexivity.
Defined.

(** ** The order in which the slots are initialised *)

Lemma sized_tuple_ctor_order NDim (x : list position) Types :
  forall st t st', sized_tuple_ctor NDim Types x st = Ok (t, st') ->
  exists new,
    consumed st' = consumed st ++ new /\
    (forall p, p ∈ new -> NDim - Z.of_nat (length Types) < index p <= NDim) /\
    forall i j p q, new !! i = Some p -> new !! j = Some q -> (i < j)%nat ->
      index q < index p.
Proof.
  induction Types as [|First Types' IH]; simpl; intros st t st' H.
  - injection H as <- <-. exists []. rewrite app_nil_r.
    split; [done|]. split; [intros p Hp; by apply elem_of_nil in Hp|].
    intros i j p q Hp. by rewrite lookup_nil in Hp.
  - apply bind_Ok in H as (t1 & st1 & Hc & H).
    apply bind_Ok in H as (e & st2 & Hi & H).
    apply bind_Ok in H as (m & st3 & Hl & H).
    apply lift_Ok in Hl as [_ ->]. injection H as <- <-.
    destruct (IH _ _ _ Hc) as (new & Hnew & Hin & Hord).
    apply initialize_Ok in Hi
      as [(_ & _ & ->)|(p & v & Hs & _ & _ & ->)].
    + exists new. split; [done|]. split; [|done].
      intros p Hp. specialize (Hin p Hp). lia.
    + apply selected_Some in Hs as [_ Hpi].
      exists (new ++ [p]). simpl. rewrite Hnew, <- app_assoc.
      split; [done|]. split.
      * intros q Hq. apply elem_of_app in Hq as [Hq|Hq].
        -- specialize (Hin q Hq). lia.
        -- apply list_elem_of_singleton in Hq. subst q. lia.
      * intros i j a b Ha Hb Hij.
        apply lookup_app_Some in Hb as [Hb|[Hj Hb]].
        -- apply lookup_app_Some in Ha as [Ha|[Hi' _]].
           ++ by apply (Hord i j).
           ++ apply lookup_lt_Some in Hb. lia.
        -- apply lookup_app_Some in Ha as [Ha|[Hi' Ha]].
           ++ assert ((j - length new)%nat = 0%nat) as Hz.
              { destruct (j - length new)%nat eqn:E'; [done|].
                simpl in Hb. by rewrite lookup_nil in Hb. }
              rewrite Hz in Hb. injection Hb as <-.
              assert (Ha' : a ∈ new) by (by eapply list_elem_of_lookup_2).
              specialize (Hin a Ha'). lia.
           ++ apply lookup_lt_Some in Ha, Hb. simpl in Ha, Hb. lia.
Qed.

(** X4. The slots are initialised from the last one to the first one, the
    base class before the member: the initialisers that one construction
    consumes are consumed in strictly decreasing order of their index. *)
Theorem slots_are_initialized_last_to_first
    (T : list ty) (x : list position) (st : state) (t : sized_tuple) (st' : state) :
  tuple T x st = Ok (t, st') ->
  exists new,
    consumed st' = consumed st ++ new /\
    forall i j p q, new !! i = Some p -> new !! j = Some q -> (i < j)%nat ->
      index q < index p.
Proof.
  intros H. apply sized_tuple_ctor_order in H as (new & Hnew & _ & Hord).
  by exists new.
Qed.

Lemma slots_are_initialized_last_to_first_witness :
  exists t st',
    tuple [TBool; TChar; TDouble; TInt] [pos 1 0; pos 3 1; pos 2 2] three_literals
    = Ok (t, st') /\
    consumed st' = [pos 3 1; pos 2 2; pos 1 0].
Proof.
  destruct (slots_are_initialized_last_to_first
              [TBool; TChar; TDouble; TInt] [pos 1 0; pos 3 1; pos 2 2]
              three_literals _ _ ltac:(vm_compute; reflexivity))
    as (new & Hnew & _).
  eexists _, _. split; [vm_compute; reflexivity|]. reflexivity.
Defined.

(** ** Slots hold values of their declared types *)

Lemma Ok_inj {A : Type} (a b : A) : Ok a = Ok b -> a = b.
Proof. by intros [= ->]. Qed.

Lemma of_integer_type First z v' :
  of_integer First z = Ok v' -> type_of v' = First.
Proof. unfold of_integer. destruct First; intros [= <-]; reflexivity. Qed.

Lemma of_double_integer_type w mk b v' First :
  (forall z, type_of (mk z) = First) ->
  of_double_integer w mk b = Ok v' -> type_of v' = First.
Proof.
  intros Hmk. unfold of_double_integer.
  destruct (Z_of_double b) as [z|]; [|discriminate].
  destruct (fits w z); [|discriminate]. intros [= <-]. apply Hmk.
Qed.

Lemma of_double_type First b v' :
  of_double First b = Ok v' -> type_of v' = First.
Proof.
  unfold of_double. destruct First.
  - intros <-%Ok_inj. reflexivity.
  - by apply of_double_integer_type.
  - by apply of_double_integer_type.
  - by apply of_double_integer_type.
  - intros <-%Ok_inj. reflexivity.
  - discriminate.
  - discriminate.
Qed.

Lemma convert_type k First v v' :
  convert k First v = Ok v' -> type_of v' = First.
Proof.
  unfold convert. destruct (ty_eqb (type_of v) First) eqn:E.
  - intros [= <-]. by apply ty_eqb_eq.
  - clear E. destruct v as [b|c|n|n|b|q|q].
    + apply of_integer_type.
    + apply of_integer_type.
    + apply of_integer_type.
    + apply of_integer_type.
    + apply of_double_type.
    + destruct First; intros [= <-]; reflexivity.
    + destruct k, First; intros [= <-]; reflexivity.
Qed.

Lemma sized_tuple_ctor_well_typed NDim (x : list position) Types :
  forall st t st', sized_tuple_ctor NDim Types x st = Ok (t, st') ->
  Types_of t = Types /\ well_typed t.
Proof.
  induction Types as [|First Types' IH]; simpl; intros st t st' H.
  - by injection H as <- <-.
  - apply bind_Ok in H as (t1 & st1 & Hc & H).
    apply bind_Ok in H as (e & st2 & Hi & H).
    apply bind_Ok in H as (m & st3 & Hl & H).
    apply lift_Ok in Hl as [Hm ->]. injection H as <- <-.
    destruct (IH _ _ _ Hc) as [HT Hw]. simpl.
    split; [by rewrite HT|]. split; [by apply convert_type in Hm | done].
Qed.

Lemma assign_well_typed t Idx v First :
  well_typed t ->
  Types_of t !! Z.to_nat (Idx - 1) = Some First -> 1 <= Idx ->
  type_of v = First ->
  well_typed (assign_m_value t Idx v).
Proof.
  revert Idx. induction t as [|F m s IH]; simpl; intros Idx Hw HT HI Hv; [done|].
  destruct Hw as [Hm Hs]. destruct (Z.eqb_spec Idx 1) as [E|E]; simpl.
  - subst Idx. injection HT as <-. done.
  - split; [done|]. apply IH; [done| |lia|done].
    replace (Z.to_nat (Idx - 1)) with (S (Z.to_nat (Idx - 1 - 1))) in HT by lia.
    exact HT.
Qed.

Lemma set_well_typed t st Idx arg_ t' st' :
  well_typed t -> set Idx arg_ t st = Ok (t', st') -> well_typed t'.
Proof.
  intros Hw H. apply set_Ok in H
    as [(-> & -> & ->)|(a & v & First & HI & HT & _ & Hc & -> & _)]; [done|].
  apply (assign_well_typed _ _ _ First); [done | done | lia|].
  by apply convert_type in Hc.
Qed.

Lemma run_well_typed calls :
  forall t st t' r st', well_typed t -> run calls t st = Ok ((t', r), st') ->
  well_typed t'.
Proof.
  induction calls as [|[Idx|Idx arg_] calls IH]; intros t st t' r st' Hw H.
  - by injection H as <- _ <-.
  - destruct (get_total (sizeof t) Idx t) as [e He].
    rewrite (run_cons_get _ _ _ _ _ He) in H.
    destruct (run calls t st) as [[[t1 r1] st1]| |] eqn:Hr; try discriminate.
    injection H as <- _ <-. by apply (IH _ _ _ _ _ Hw Hr).
  - simpl in H. apply bind_Ok in H as (t1 & st1 & Hs & H).
    apply (IH _ _ _ _ _ (set_well_typed _ _ _ _ _ _ Hw Hs) H).
Qed.

Lemma get_well_typed NDim t Idx v :
  well_typed t -> get NDim Idx t = Ok (const_xvalue v) ->
  NDim - sizeof t < Idx <= NDim /\
  Types_of t !! Z.to_nat (Idx - (NDim - sizeof t) - 1) = Some (type_of v).
Proof.
  induction t as [|First m super IH]; simpl; [done|]. intros [Hm Hs].
  pose proof (sizeof_nonneg super).
  destruct (Z.eqb_spec Idx (NDim - sizeof super)) as [E|E].
  - intros [= <-]. subst Idx. split; [lia|].
    replace (Z.to_nat _) with 0%nat by lia. simpl. by rewrite Hm.
  - destruct (get NDim Idx super) as [[w|w|w]| |] eqn:Hg; simpl; try discriminate.
    intros [= <-]. destruct (IH Hs eq_refl) as [Hr HT]. split; [lia|].
    replace (Z.to_nat (Idx - (NDim - (1 + sizeof super)) - 1))
      with (S (Z.to_nat (Idx - (NDim - sizeof super) - 1))) by lia.
    exact HT.
Qed.

(** X5. A tuple object holds, in every slot, a value of the declared type of
    that slot: so it is after a construction that runs, whatever the types
    of the initialisers' objects were, and after any further calls of [get]
    and [set] that run; what [get] then returns for a slot is of the type
    declared for it. *)
Theorem slots_hold_values_of_their_declared_types
    (T : list ty) (x : list position) (st : state) (t : sized_tuple) (st1 : state)
    (calls : list call) (t' : sized_tuple) (r : list view) (st2 : state) :
  tuple T x st = Ok (t, st1) ->
  run calls t st1 = Ok ((t', r), st2) ->
  Types_of t' = T /\ well_typed t' /\
  forall k v, get (Z.of_nat (length T)) k t' = Ok (const_xvalue v) ->
    1 <= k <= Z.of_nat (length T) /\ T !! Z.to_nat (k - 1) = Some (type_of v).
Proof.
  intros Hc Hr.
  destruct (sized_tuple_ctor_well_typed _ _ _ _ _ _ Hc) as [HT Hw].
  destruct (run_preserves _ _ _ _ _ _ Hr) as [HT' _].
  pose proof (run_well_typed _ _ _ _ _ _ Hw Hr) as Hw'.
  assert (HTT : Types_of t' = T) by congruence.
  split; [exact HTT|]. split; [exact Hw'|].
  intros k v Hg. destruct (get_well_typed _ _ _ _ Hw' Hg) as [Hk Hl].
  rewrite sizeof_Types_of, HTT in Hk, Hl. split; [lia|].
  rewrite <- Hl. f_equal. lia.
Qed.

Lemma slots_hold_values_of_their_declared_types_witness :
  let t := derived TBool (VBool true) (derived TShort (VShort 4464) anchor) in
  let st := mk_state {[0%nat := VInt 70000]} [] in
  let st1 := mk_state {[0%nat := VInt 70000]} [pos 2 0%nat; pos 1 0%nat] in
  tuple [TBool; TShort] [pos 2 0%nat; pos 1 0%nat] st = Ok (t, st1) /\
  run [call_set 1 0%nat; call_get 2] t st1
  = Ok ((t, [const_xvalue (VShort 4464)]), st1) /\
  well_typed t.
Proof.
  intros t st st1.
  assert (Hc : tuple [TBool; TShort] [pos 2 0%nat; pos 1 0%nat] st = Ok (t, st1))
    by (vm_compute; reflexivity).
  assert (Hr : run [call_set 1 0%nat; call_get 2] t st1
               = Ok ((t, [const_xvalue (VShort 4464)]), st1))
    by (vm_compute; reflexivity).
  split; [exact Hc|]. split; [exact Hr|].
  exact (proj1 (proj2 (slots_hold_values_of_their_declared_types
                         _ _ _ _ _ _ _ _ _ Hc Hr))).
Defined.

(** ** The bounds of [access], [set] and [get] *)

Lemma access_drop t Idx s :
  access t Idx = Some s ->
  1 <= Idx <= sizeof t + 1 /\
  Types_of s = drop (Z.to_nat (Idx - 1)) (Types_of t).
Proof.
  revert Idx. induction t as [|F m super IH]; simpl; intros Idx.
  - destruct (Z.eqb_spec Idx 1) as [->|E]; [|discriminate].
    intros [= <-]. split; [lia | done].
  - pose proof (sizeof_nonneg super).
    destruct (Z.eqb_spec Idx 1) as [->|E].
    + intros [= <-]. split; [lia | done].
    + intros H'. destruct (IH _ H') as [Hr Hd]. split; [lia|].
      replace (Z.to_nat (Idx - 1)) with (S (Z.to_nat (Idx - 1 - 1))) by lia.
      exact Hd.
Qed.

Lemma access_in_range t Idx :
  1 <= Idx <= sizeof t + 1 -> is_Some (access t Idx).
Proof.
  revert Idx. induction t as [|F m super IH]; simpl; intros Idx H.
  - replace Idx with 1 by lia. by eexists.
  - destruct (Z.eqb_spec Idx 1) as [->|E]; [by eexists|]. apply IH. lia.
Qed.

(** X6. [access<T, Idx>] names a class exactly for [Idx] from 1 to N + 1: it
    is the class reached from [T] by [Idx - 1] steps to [super], whose
    elements are those of [T] without the first [Idx - 1]; for [Idx = N + 1]
    that is the recursion anchor, and for any other [Idx] outside [1..N] the
    instantiation fails. *)
Theorem access_names_the_class_after_Idx_minus_1_supers (t : sized_tuple) (Idx : Z) :
  (1 <= Idx <= sizeof t + 1 ->
     exists s, access t Idx = Some s /\
       Types_of s = drop (Z.to_nat (Idx - 1)) (Types_of t) /\
       (s = anchor <-> Idx = sizeof t + 1)) /\
  (~ 1 <= Idx <= sizeof t + 1 -> access t Idx = None).
Proof.
  split.
  - intros H. destruct (access_in_range t Idx H) as [s Hs].
    exists s. split; [exact Hs|].
    destruct (access_drop _ _ _ Hs) as [_ Hd]. split; [exact Hd|].
    assert (Hlen : sizeof s = sizeof t - (Idx - 1)).
    { rewrite !sizeof_Types_of, Hd, length_drop.
      pose proof (sizeof_Types_of t). lia. }
    split.
    + intros ->. simpl in Hlen. lia.
    + intros ->. destruct s as [|F m s']; [done|].
      simpl in Hlen. pose proof (sizeof_nonneg s'). lia.
  - intros H. destruct (access t Idx) as [s|] eqn:Hs; [|done].
    apply access_drop in Hs as [Hr _]. lia.
Qed.

(** X7. On a tuple that is not empty, [set<Idx>] with an [Idx] outside
    [1..N] does not compile, whatever its argument is. *)
Theorem set_rejects_an_index_out_of_range
    (t : sized_tuple) (st : state) (Idx : Z) (arg_ : loc) :
  t <> anchor -> ~ 1 <= Idx <= sizeof t ->
  set Idx arg_ t st = IllFormed.
Proof.
  intros Ht HI. destruct t as [|F m s]; [done|]. unfold set.
  destruct (access (derived F m s) Idx) as [[|F' m' s']|] eqn:Ha; [done| |done].
  apply access_derived in Ha. lia.
Qed.

Lemma set_rejects_an_index_out_of_range_witness :
  tuple2_object <> anchor /\ ~ 1 <= 4 <= sizeof tuple2_object /\
  set 4 3%nat tuple2_object caller_state = IllFormed.
Proof.
  assert (Ht : tuple2_object <> anchor) by discriminate.
  assert (HI : ~ 1 <= 4 <= sizeof tuple2_object) by (simpl; lia).
  split; [exact Ht|]. split; [exact HI|].
  exact (set_rejects_an_index_out_of_range tuple2_object caller_state 4 3%nat Ht HI).
Defined.


(** ** How calls of [set] compose *)

Lemma assign_m_value_comm t i j va vb :
  i <> j ->
  assign_m_value (assign_m_value t i va) j vb =
  assign_m_value (assign_m_value t j vb) i va.
Proof.
  revert i j. induction t as [|F m s IH]; simpl; intros i j Hne; [done|].
  destruct (Z.eqb_spec i 1) as [Ei|Ei], (Z.eqb_spec j 1) as [Ej|Ej]; simpl.
  - lia.
  - by rewrite (proj2 (Z.eqb_eq i 1) Ei), (proj2 (Z.eqb_neq j 1) Ej).
  - by rewrite (proj2 (Z.eqb_neq i 1) Ei), (proj2 (Z.eqb_eq j 1) Ej).
  - rewrite (proj2 (Z.eqb_neq i 1) Ei), (proj2 (Z.eqb_neq j 1) Ej).
    f_equal. apply IH. lia.
Qed.

Lemma move_construct_twice v :
  move_construct (snd (move_construct v)) =
  (snd (move_construct v), snd (move_construct v)).
Proof. by destruct v. Qed.

(** X9. Two calls of [set] on different slots, each with its own live object
    of the declared type of its slot, can be made in either order: both
    orders run and end with the same tuple and the same state. *)
Theorem sets_on_different_slots_commute
    (t : sized_tuple) (st : state) (i j : Z) (a b : loc) (va vb : val) :
  i <> j -> a <> b ->
  1 <= i <= sizeof t -> 1 <= j <= sizeof t ->
  objects st !! a = Some va -> objects st !! b = Some vb ->
  Types_of t !! Z.to_nat (i - 1) = Some (type_of va) ->
  Types_of t !! Z.to_nat (j - 1) = Some (type_of vb) ->
  exists t' st',
    (t1 <- set i a t ;; set j b t1) st = Ok (t', st') /\
    (t1 <- set j b t ;; set i a t1) st = Ok (t', st').
Proof.
  intros Hij Hab Hi Hj Ha Hb Hta Htb.
  eexists _, _. split.
  - rewrite (bind_ret_Ok _ _ _ _ _ (set_spec t st i a va Hi Ha Hta)).
    apply set_spec.
    + by rewrite sizeof_assign.
    + simpl. by rewrite lookup_insert_ne.
    + by rewrite Types_of_assign.
  - rewrite (bind_ret_Ok _ _ _ _ _ (set_spec t st j b vb Hj Hb Htb)).
    rewrite (set_spec _ _ i a va).
    + simpl. rewrite assign_m_value_comm by done.
      by rewrite insert_insert_ne.
    + by rewrite sizeof_assign.
    + simpl. by rewrite lookup_insert_ne.
    + by rewrite Types_of_assign.
Qed.

Lemma sets_on_different_slots_commute_witness :
  exists t' st',
    (t1 <- set 3 3%nat tuple2_object ;; set 1 4%nat t1)
      (mk_state (<[4%nat := VBool true]> (objects caller_state)) [])
    = Ok (t', st') /\
    (t1 <- set 1 4%nat tuple2_object ;; set 3 3%nat t1)
      (mk_state (<[4%nat := VBool true]> (objects caller_state)) [])
    = Ok (t', st') /\
    get 3 1 t' = Ok (const_xvalue (VBool true)) /\
    get 3 3 t' = Ok (const_xvalue black_dog).
Proof.
  destruct (sets_on_different_slots_commute tuple2_object
              (mk_state (<[4%nat := VBool true]> (objects caller_state)) [])
              3 1 3%nat 4%nat black_dog (VBool true))
    as (t' & st' & H1 & H2); [lia | lia | simpl; lia | simpl; lia | reflexivity..|].
  exists t', st'. split; [exact H1|]. split; [exact H2|].
  assert (E : Ok (t', st') =
              Ok (assign_m_value (assign_m_value tuple2_object 3 black_dog) 1
                    (VBool true),
                  mk_state (<[4%nat := VBool true]>
                              (<[3%nat := VUniqueString None]>
                                 (<[4%nat := VBool true]> (objects caller_state))))
                           [])).
  { rewrite <- H1. reflexivity. }
  injection E as -> _. split; reflexivity.
Defined.

(** X10. An object that one [set] has moved from is passed on as it was
    left: when the same object goes to a second [set] on another slot of the
    same type, the first slot holds the object's value and the second slot
    holds its moved-from state, which for an owning pointer is null. *)
Theorem set_again_from_the_same_object
    (t : sized_tuple) (st : state) (i j : Z) (a : loc) (v : val) :
  i <> j ->
  1 <= i <= sizeof t -> 1 <= j <= sizeof t ->
  objects st !! a = Some v ->
  Types_of t !! Z.to_nat (i - 1) = Some (type_of v) ->
  Types_of t !! Z.to_nat (j - 1) = Some (type_of v) ->
  exists t' st',
    (t1 <- set i a t ;; set j a t1) st = Ok (t', st') /\
    get (sizeof t') i t' = Ok (const_xvalue v) /\
    get (sizeof t') j t' = Ok (const_xvalue (snd (move_construct v))) /\
    objects st' !! a = Some (snd (move_construct v)).
Proof.
  intros Hij Hi Hj Ha Hti Htj.
  set (w := snd (move_construct v)).
  assert (Hs2 := set_spec (assign_m_value t i v)
                  (mk_state (<[a := w]> (objects st)) (consumed st)) j a w).
  simpl in Hs2. rewrite sizeof_assign, Types_of_assign, lookup_insert_eq in Hs2.
  assert (Htw : type_of w = type_of v) by apply type_of_moved_from.
  rewrite Htw in Hs2. specialize (Hs2 Hj eq_refl Htj).
  eexists _, _. split; [|split; [|split]].
  - rewrite (bind_ret_Ok _ _ _ _ _ (set_spec t st i a v Hi Ha Hti)). exact Hs2.
  - rewrite !sizeof_assign.
    rewrite get_assign_ne by (rewrite sizeof_assign; lia).
    replace i with (sizeof t - sizeof t + i) at 1 by lia.
    by apply get_assign_eq.
  - rewrite !sizeof_assign.
    replace j with (sizeof t - sizeof (assign_m_value t i v) + j) at 1
      by (rewrite sizeof_assign; lia).
    apply get_assign_eq. by rewrite sizeof_assign.
  - simpl. rewrite lookup_insert_eq. unfold w.
    by rewrite move_construct_twice.
Qed.

Lemma set_again_from_the_same_object_witness :
  let t := derived TUniqueString (VUniqueString None)
             (derived TUniqueString (VUniqueString None) anchor) in
  exists t' st',
    (t1 <- set 1 3%nat t ;; set 2 3%nat t1) caller_state = Ok (t', st') /\
    get (sizeof t') 1 t' = Ok (const_xvalue black_dog) /\
    get (sizeof t') 2 t' = Ok (const_xvalue (VUniqueString None)) /\
    objects st' !! 3%nat = Some (VUniqueString None).
Proof.
  intros t.
  destruct (set_again_from_the_same_object t caller_state 1 2 3%nat black_dog)
    as (t' & st' & H & H1 & H2 & H3);
    [lia | simpl; lia | simpl; lia | reflexivity..|].
  exists t', st'. split; [exact H|]. split; [exact H1|]. split; [exact H2 | exact H3].
Defined.

(** ** [sized_tuple] with an [NDim] of its own *)






(** ** When [initialize] fails *)

(** X13. [initialize] compiles for any list of initialisers, and it runs
    unless the first initialiser for its slot refers to an object that is
    not alive; when no initialiser is for its slot it changes nothing. *)
Theorem initialize_fails_only_on_a_dead_object
    (N : Z) (First : ty) (xs : list position) (st : state) :
  initialize N First xs st <> IllFormed /\
  (initialize N First xs st = Undefined <->
   exists p, selected N xs = Some p /\ objects st !! value p = None) /\
  (N ∉ index <$> xs -> initialize N First xs st = Ok (value_init First, st)).
Proof.
  destruct (selected N xs) as [p|] eqn:Hs.
  - destruct (objects st !! value p) as [v|] eqn:Hv.
    + rewrite (initialize_Some _ First _ _ _ _ Hs Hv).
      split; [done|]. split.
      * split; [done|]. intros (q & [= <-] & Hq). congruence.
      * intros Hno. apply selected_None in Hno. congruence.
    + assert (E : initialize N First xs st = Undefined).
      { rewrite initialize_selected, Hs.
        unfold bind, move_from, bind, load. by rewrite Hv. }
      rewrite E. split; [done|]. split.
      * split; [eauto | done].
      * intros Hno. apply selected_None in Hno. congruence.
  - rewrite (initialize_None _ First _ _ Hs). split; [done|]. split; [|done].
    split; [done|]. intros (q & [=] & _).
Qed.

Lemma sized_tuple_ctor_reads_live_objects NDim (x : list position) Types :
  forall st t st', sized_tuple_ctor NDim Types x st = Ok (t, st') ->
  forall k p, NDim - Z.of_nat (length Types) < k <= NDim ->
    selected k x = Some p -> is_Some (objects st !! value p).
Proof.
  induction Types as [|First Types' IH]; simpl; intros st t st' H k p Hk Hs; [lia|].
  apply bind_Ok in H as (t1 & st1 & Hc & H).
  apply bind_Ok in H as (e & st2 & Hi & _).
  destruct (decide (k = NDim - Z.of_nat (length Types'))) as [->|Hne].
  - apply initialize_Ok in Hi as [(Hn & _)|(q & v & Hq & Hv & _)]; [congruence|].
    assert (q = p) by congruence. subst q.
    destruct (sized_tuple_ctor_keeps_objects _ _ _ _ _ _ Hc) as (Hd & _).
    apply elem_of_dom. rewrite <- Hd. apply elem_of_dom. by eexists.
  - apply (IH _ _ _ Hc k p); [lia | done].
Qed.

(** X14. A construction that runs has read only live objects: the first
    initialiser for each slot of the tuple refers to an object that exists.
    With a dangling reference for a slot, construction does not run. *)
Theorem construction_reads_only_live_objects
    (T : list ty) (x : list position) (st : state) (t : sized_tuple) (st' : state) :
  tuple T x st = Ok (t, st') ->
  forall p, selected (index p) x = Some p -> in_range T p ->
    is_Some (objects st !! value p).
Proof.
  intros H p Hs Hr.
  apply (sized_tuple_ctor_reads_live_objects _ _ _ _ _ _ H (index p) p);
    [unfold in_range in Hr; lia | done].
Qed.

Lemma construction_reads_only_live_objects_witness :
  exists t st',
    tuple [TBool; TChar; TDouble; TInt] [pos 1 0; pos 3 1; pos 2 2] three_literals
    = Ok (t, st') /\
    is_Some (objects three_literals !! value (pos 3 1)) /\
    tuple [TBool; TChar; TDouble; TInt] [pos 1 0; pos 3 7%nat; pos 2 2]
      three_literals = Undefined.
Proof.
  eexists _, _. split; [vm_compute; reflexivity|]. split; [|reflexivity].
  apply (construction_reads_only_live_objects
           [TBool; TChar; TDouble; TInt] [pos 1 0; pos 3 1; pos 2 2]
           three_literals _ _ ltac:(vm_compute; reflexivity) (pos 3 1));
    [reflexivity | unfold in_range; simpl; lia].
Defined.
